(** * Trajectory-tracking cost of the SAC controller ([sac::cost], cost.hpp)

    A shallow embedding of the class [sac::cost]: its data members, its
    constructor, [get_term_cost], [get_dmdx], [compute_cost], [update],
    the conversion to [double] and [steps].

    Conventions of the embedding.
    - [double] is read as an element of a real field [R] (exact arithmetic:
      rounding, infinities and NaN are outside the model) wherever the
      flow of data through the object is what is at stake; the arithmetic
      of the terminal cost itself is also given in IEEE binary64
      ([Module Binary64]).
    - [state_type] is [std::vector<double>], a [seq R]; the fixed-size Eigen
      vectors and matrices are MathComp matrices over [R].
    - A member function is a computation over the object: it returns a value
      or lets an exception of a collaborator escape, and in both cases leaves
      the object as mutated so far.
    - What cost.hpp uses but does not define ([inc_cost], [state_intp],
      [x_wrap], [AngleWrap], [State2Mat], [get_DesTraj], [P], [xlen] and
      odeint's [integrate_adaptive]) is a parameter of the development. *)

From Stdlib Require Import ZArith Floats.
From mathcomp Require Import ssreflect ssrfun ssrbool eqtype ssrnat seq choice.
From mathcomp Require Import fintype bigop order ssralg ssrnum ssrint rat matrix.
From mathcomp Require Import archimedean.

Set Implicit Arguments.
Unset Strict Implicit.
Unset Printing Implicit Defensive.

Import Order.TTheory GRing.Theory Num.Theory.
Local Open Scope ring_scope.

(** ** Outcome of a call: a value, or an exception that escapes *)

Inductive result (A : Type) : Type :=
  | Ok of A
  | Throw.

Arguments Throw {A}.

(** ** Element access [v[k]] by reference on a [std::vector]

    [vec_modify f k v] is [v] after [f] has been run on the reference
    [v[k]].  Indexing past the end is undefined behaviour in C++; the model
    leaves the vector as it is there, and the theorems that index say where
    they need the index in range. *)

Fixpoint vec_modify (T : Type) (f : T -> T) (k : nat) (v : seq T) : seq T :=
  match v, k with
  | [::], _ => [::]
  | a :: v', 0%N => f a :: v'
  | a :: v', k'.+1 => a :: vec_modify f k' v'
  end.

Definition vec_set (T : Type) (k : nat) (a : T) (v : seq T) : seq T :=
  vec_modify (fun _ => a) k v.

(** ** Computations over an object of type [S] *)

Module Obj.
Section Monad.
Variable S : Type.

Definition M (A : Type) : Type := S -> result A * S.

Definition ret (A : Type) (a : A) : M A := fun s => (Ok a, s).

Definition bind (A B : Type) (m : M A) (k : A -> M B) : M B :=
  fun s => match m s with
           | (Ok a, s') => k a s'
           | (Throw, s') => (Throw, s')
           end.

Definition get : M S := fun s => (Ok s, s).

Definition modify (f : S -> S) : M unit := fun s => (Ok tt, f s).

Definition call (A : Type) (r : result A) : M A := fun s => (r, s).

End Monad.

Arguments get {S}.

End Obj.

Notation "x <- m ;; k" := (Obj.bind m (fun x => k))
  (at level 61, m at next level, right associativity).
Notation "m ;; k" := (Obj.bind m (fun _ => k))
  (at level 61, right associativity).

(** ** The expression of the terminal cost

    The expression [get_term_cost] returns,
    [((mx_tf_-mxdes_tf_).transpose()*P*(mx_tf_-mxdes_tf_))[0]], written
    over the operations of an arithmetic: the difference of the two
    vectors entry by entry, the row [(mx_tf_-mxdes_tf_)^T P] as sums of
    products over the rows of [P], and the product of that row with the
    difference.  A vector is the sequence of its entries, [P] the sequence
    of its rows; the sums run in index order from 0. *)

Section Form.

Variables (T : Type) (zero : T) (add sub mul : T -> T -> T).

Definition vec_sub (x y : seq T) : seq T :=
  [seq sub p.1 p.2 | p <- zip x y].

Definition row_times (d : seq T) (P : seq (seq T)) (j : nat) : T :=
  foldl (fun acc i =>
           add acc (mul (nth zero d i) (nth zero (nth [::] P i) j)))
        zero (iota 0 (size d)).

Definition quad_form_of (d : seq T) (P : seq (seq T)) : T :=
  foldl (fun acc j => add acc (mul (row_times d P j) (nth zero d j)))
        zero (iota 0 (size d)).

Definition term_cost_of (mx mxdes : seq T) (P : seq (seq T)) : T :=
  quad_form_of (vec_sub mx mxdes) P.

End Form.

(** ** The terminal cost in IEEE binary64

    The expression over the operations of [double], the arithmetic
    cost.hpp computes it in. *)

Module Binary64.

Definition finite_double (x : float) : bool :=
  match Prim2SF x with
  | S754_zero _ | S754_finite _ _ _ => true
  | _ => false
  end.

Definition zero_double (x : float) : bool :=
  match Prim2SF x with
  | S754_zero _ => true
  | _ => false
  end.

Definition vsub_double : seq float -> seq float -> seq float :=
  vec_sub PrimFloat.sub.

Definition row_mul_double : seq float -> seq (seq float) -> nat -> float :=
  row_times PrimFloat.zero PrimFloat.add PrimFloat.mul.

Definition quad_form_double : seq float -> seq (seq float) -> float :=
  quad_form_of PrimFloat.zero PrimFloat.add PrimFloat.mul.

Definition term_cost_double : seq float -> seq float -> seq (seq float) -> float :=
  term_cost_of PrimFloat.zero PrimFloat.add PrimFloat.sub PrimFloat.mul.

Lemma zero_finite (x : float) : zero_double x -> finite_double x.
Proof. by rewrite /zero_double /finite_double; case: (Prim2SF x). Qed.

Lemma zero_zero : zero_double PrimFloat.zero.
Proof. by vm_compute. Qed.

Lemma sub_self_zero (x : float) :
  finite_double x -> zero_double (PrimFloat.sub x x).
Proof.
rewrite /finite_double /zero_double sub_spec.
case: (Prim2SF x) => [s| | |s m e] //= _; first by case: s.
by rewrite Z.sub_diag.
Qed.

Lemma mul_zero_l (a b : float) :
  zero_double a -> finite_double b -> zero_double (PrimFloat.mul a b).
Proof.
rewrite /finite_double /zero_double mul_spec.
by case: (Prim2SF a) => [sa| | |sa ma ea] //; case: (Prim2SF b).
Qed.

Lemma add_zero (a b : float) :
  zero_double a -> zero_double b -> zero_double (PrimFloat.add a b).
Proof.
rewrite /zero_double add_spec.
case: (Prim2SF a) => [sa| | |sa ma ea] //.
case: (Prim2SF b) => [sb| | |? ? ?] // _ _.
by case: sa; case: sb.
Qed.

Lemma zero_eqb (x : float) :
  zero_double x -> PrimFloat.eqb x PrimFloat.zero = true.
Proof.
rewrite /zero_double eqb_spec.
by case: (Prim2SF x) => [s| | |? ? ?] //; case: s.
Qed.

Lemma zero_leb (x : float) :
  zero_double x -> PrimFloat.leb PrimFloat.zero x = true.
Proof.
rewrite /zero_double leb_spec.
by case: (Prim2SF x) => [s| | |? ? ?] //; case: s.
Qed.

Lemma foldl_zero (T : Type) (f : T -> float) (s : seq T) (acc : float) :
  zero_double acc -> (forall i, zero_double (f i)) ->
  zero_double (foldl (fun acc i => PrimFloat.add acc (f i)) acc s).
Proof.
move=> Hacc Hf; elim: s acc Hacc => [|i s IH] acc Hacc //=.
by apply: IH; apply: add_zero.
Qed.

Lemma nth_zero (d : seq float) (i : nat) :
  all zero_double d -> zero_double (nth PrimFloat.zero d i).
Proof.
move=> Hd; case: (ltnP i (size d)) => Hi; first exact: (all_nthP _ Hd).
by rewrite nth_default // zero_zero.
Qed.

Lemma nth_finite (P : seq (seq float)) (i j : nat) :
  all (all finite_double) P ->
  finite_double (nth PrimFloat.zero (nth [::] P i) j).
Proof.
move=> HP.
have Hrow : all finite_double (nth [::] P i).
  case: (ltnP i (size P)) => Hi; first exact: (all_nthP _ HP).
  by rewrite nth_default.
case: (ltnP j (size (nth [::] P i))) => Hj; first exact: (all_nthP _ Hrow).
by rewrite nth_default // zero_finite // zero_zero.
Qed.

Lemma vsub_self_zero (x : seq float) :
  all finite_double x -> all zero_double (vsub_double x x).
Proof.
rewrite /vsub_double /vec_sub; elim: x => [|a x IH] //= /andP[Ha Hx].
by rewrite sub_self_zero //= IH.
Qed.

Lemma quad_form_zero (d : seq float) (P : seq (seq float)) :
  all zero_double d -> all (all finite_double) P ->
  zero_double (quad_form_double d P).
Proof.
move=> Hd HP; rewrite /quad_form_double /quad_form_of.
apply: foldl_zero; first exact: zero_zero.
move=> j; apply: mul_zero_l; last by apply: zero_finite; apply: nth_zero.
rewrite /row_times; apply: foldl_zero; first exact: zero_zero.
by move=> i; apply: mul_zero_l; [apply: nth_zero | apply: nth_finite].
Qed.

End Binary64.

Section Cost.

(** [double], in exact arithmetic. *)
Variable R : realFieldType.

(** The compile-time state dimension. *)
Variable xlen : nat.

(** [state_type], the container of odeint states.  cost.hpp builds it from
    a length ([J1_(1)], [x_tf_(xlen)]) and indexes it with [[]], as a
    [std::vector<double>]: a sequence whose elements the sized constructor
    sets to [0.0]. *)
Definition state_type : Type := seq R.

(** The running-cost functor [inc_cost] and the state interpolator
    [state_intp], with the members cost.hpp calls: [begin()], [end()], the
    constructor of [inc_cost] from an interpolator, and the interpolator's
    call operator [m_x_intp(t, x)], which writes the state at time [t] into
    [x] or throws.  A value of these types is the collaborator as it stands
    when a member function of [cost] runs; sampling reads it and leaves it
    as it is. *)
Variables inc_cost state_intp : Type.
Variable mk_inc_cost : state_intp -> inc_cost.
Variables lofx_begin lofx_end : inc_cost -> R.
Variable sample : state_intp -> R -> result state_type.

(** The wrap-index table [x_wrap] and [AngleWrap(double&)]. *)
Variable x_wrap : seq nat.
Variable AngleWrap : R -> R.

(** [State2Mat(x, mx)] and [get_DesTraj(t, mxdes)], which write their result
    into their second argument and are functions of the first, and the
    weight [P] of the terminal cost. *)
Variable State2Mat : state_type -> 'cV[R]_xlen.
Variable get_DesTraj : R -> 'cV[R]_xlen.
Variable P : 'M[R]_xlen.

(** odeint's [integrate_adaptive] on the controlled Dormand-Prince stepper
    [make_controlled(abs, rel, runge_kutta_dopri5)]: from the tolerances, the
    system (taken by value), the state it integrates in place, the two times
    and the first step size, to the state it leaves behind and the number of
    steps, or an exception. *)
Variable integrate_adaptive :
  R -> R -> inc_cost -> state_type -> R -> R -> R -> state_type * result nat.

(** ** The data members of [sac::cost]

    [m_x_intp] is a reference member: the field holds the interpolator as
    it is when the member function runs.  [wrap_size_] is a [const] member
    that the constructor sets to [sizeof(x_wrap)/sizeof(x_wrap[0])]: it is
    the length of the table, not a field that can change. *)

Record cost : Type := Cost {
  J1_ : state_type;
  x_tf_ : state_type;
  t0_ : R;
  tf_ : R;
  J1steps_ : nat;
  mx_tf_ : 'cV[R]_xlen;
  mxdes_tf_ : 'cV[R]_xlen;
  indx_ : nat;
  m_lofx : inc_cost;
  m_x_intp : state_intp
}.

Definition wrap_size_ : nat := size x_wrap.

Definition set_J1_ (c : cost) (v : state_type) : cost :=
  Cost v (x_tf_ c) (t0_ c) (tf_ c) (J1steps_ c) (mx_tf_ c) (mxdes_tf_ c)
       (indx_ c) (m_lofx c) (m_x_intp c).
Definition set_x_tf_ (c : cost) (v : state_type) : cost :=
  Cost (J1_ c) v (t0_ c) (tf_ c) (J1steps_ c) (mx_tf_ c) (mxdes_tf_ c)
       (indx_ c) (m_lofx c) (m_x_intp c).
Definition set_t0_ (c : cost) (v : R) : cost :=
  Cost (J1_ c) (x_tf_ c) v (tf_ c) (J1steps_ c) (mx_tf_ c) (mxdes_tf_ c)
       (indx_ c) (m_lofx c) (m_x_intp c).
Definition set_tf_ (c : cost) (v : R) : cost :=
  Cost (J1_ c) (x_tf_ c) (t0_ c) v (J1steps_ c) (mx_tf_ c) (mxdes_tf_ c)
       (indx_ c) (m_lofx c) (m_x_intp c).
Definition set_J1steps_ (c : cost) (v : nat) : cost :=
  Cost (J1_ c) (x_tf_ c) (t0_ c) (tf_ c) v (mx_tf_ c) (mxdes_tf_ c)
       (indx_ c) (m_lofx c) (m_x_intp c).
Definition set_mx_tf_ (c : cost) (v : 'cV[R]_xlen) : cost :=
  Cost (J1_ c) (x_tf_ c) (t0_ c) (tf_ c) (J1steps_ c) v (mxdes_tf_ c)
       (indx_ c) (m_lofx c) (m_x_intp c).
Definition set_mxdes_tf_ (c : cost) (v : 'cV[R]_xlen) : cost :=
  Cost (J1_ c) (x_tf_ c) (t0_ c) (tf_ c) (J1steps_ c) (mx_tf_ c) v
       (indx_ c) (m_lofx c) (m_x_intp c).
Definition set_indx_ (c : cost) (v : nat) : cost :=
  Cost (J1_ c) (x_tf_ c) (t0_ c) (tf_ c) (J1steps_ c) (mx_tf_ c) (mxdes_tf_ c)
       v (m_lofx c) (m_x_intp c).

(** ** The constructor

    [J1_(1)] and [x_tf_(xlen)] value-initialise their elements to [0.0].
    [mx_tf_] and [indx_] have no initialiser: what they hold at first is
    whatever the arguments [mx0] and [indx0] say. *)

Definition cost_ctor (x_intp : state_intp) (mx0 : 'cV[R]_xlen) (indx0 : nat)
  : cost :=
  {| J1_ := nseq 1 0; x_tf_ := nseq xlen 0; t0_ := 0; tf_ := 0;
     J1steps_ := 0%N;
     mx_tf_ := mx0; mxdes_tf_ := const_mx 0;
     indx_ := indx0;
     m_lofx := mk_inc_cost x_intp; m_x_intp := x_intp |}.

(** ** The angle-wrapping loop

    [for (indx_ = 0; indx_ < wrap_size_; ++indx_) AngleWrap(x_tf_[x_wrap[indx_]]);]
    [wrap_loop n] runs the [n] iterations that are left. *)

Definition wrap_body : Obj.M cost unit :=
  Obj.modify (fun c =>
    set_x_tf_ c (vec_modify AngleWrap (nth 0%N x_wrap (indx_ c)) (x_tf_ c))).

Fixpoint wrap_loop (n : nat) : Obj.M cost unit :=
  match n with
  | 0%N => Obj.ret tt
  | n'.+1 =>
      wrap_body ;;
      Obj.modify (fun c => set_indx_ c (indx_ c).+1) ;;
      wrap_loop n'
  end.

Definition wrap_angles : Obj.M cost unit :=
  Obj.modify (fun c => set_indx_ c 0%N) ;;
  wrap_loop wrap_size_.

(** ** [get_term_cost] and [get_dmdx] *)

Definition get_term_cost : Obj.M cost R :=
  Obj.modify (fun c => set_t0_ c (lofx_begin (m_lofx c))) ;;
  Obj.modify (fun c => set_tf_ c (lofx_end (m_lofx c))) ;;
  c <- Obj.get ;;
  x <- Obj.call (sample (m_x_intp c) (tf_ c)) ;;
  Obj.modify (fun c => set_x_tf_ c x) ;;
  wrap_angles ;;
  Obj.modify (fun c => set_mx_tf_ c (State2Mat (x_tf_ c))) ;;
  Obj.modify (fun c => set_mxdes_tf_ c (get_DesTraj (tf_ c))) ;;
  c <- Obj.get ;;
  Obj.ret (((mx_tf_ c - mxdes_tf_ c)^T *m P *m (mx_tf_ c - mxdes_tf_ c)) 0 0).

Definition get_dmdx : Obj.M cost 'rV[R]_xlen :=
  Obj.modify (fun c => set_t0_ c (lofx_begin (m_lofx c))) ;;
  Obj.modify (fun c => set_tf_ c (lofx_end (m_lofx c))) ;;
  c <- Obj.get ;;
  x <- Obj.call (sample (m_x_intp c) (tf_ c)) ;;
  Obj.modify (fun c => set_x_tf_ c x) ;;
  wrap_angles ;;
  Obj.modify (fun c => set_mx_tf_ c (State2Mat (x_tf_ c))) ;;
  Obj.modify (fun c => set_mxdes_tf_ c (get_DesTraj (tf_ c))) ;;
  c <- Obj.get ;;
  Obj.ret ((mx_tf_ c - mxdes_tf_ c)^T *m P).

(** ** [compute_cost], [update], the conversion to [double], [steps]

    [compute_cost] takes its argument by reference and its only caller passes
    [J1_]: the model integrates the member in place. *)

Definition eps : R := (10%:R ^+ 7)^-1.
Definition tol : R := (10%:R ^+ 5)^-1.
Definition dt0 : R := 100%:R^-1.

Definition compute_cost : Obj.M cost nat :=
  c <- Obj.get ;;
  let: (J, r) := integrate_adaptive tol tol (m_lofx c) (J1_ c)
                   (t0_ c) (tf_ c - eps) dt0 in
  Obj.modify (fun c => set_J1_ c J) ;;
  J1_steps <- Obj.call r ;;
  Obj.ret J1_steps.

Definition update : Obj.M cost unit :=
  Obj.modify (fun c => set_t0_ c (lofx_begin (m_lofx c))) ;;
  Obj.modify (fun c => set_tf_ c (lofx_end (m_lofx c))) ;;
  m <- get_term_cost ;;
  Obj.modify (fun c => set_J1_ c (vec_set 0 m (J1_ c))) ;;
  n <- compute_cost ;;
  Obj.modify (fun c => set_J1steps_ c n).

(** [operator double() { return J1_[0]; }]: the first element of [J1_],
    and nothing when there is none. *)
Definition operator_double (c : cost) : option R := ohead (J1_ c).

Definition steps (c : cost) : nat := J1steps_ c.

(** ** What the member functions leave in the object *)

(** The sampled state once the loop has run over the whole of [x_wrap]. *)
Definition wrapped (x : state_type) : state_type :=
  foldl (fun v k => vec_modify AngleWrap k v) x x_wrap.

(** The error vector [mx_tf_ - mxdes_tf_] built from a sample [x] taken at
    the time [tf]. *)
Definition err_vec (tf : R) (x : state_type) : 'cV[R]_xlen :=
  State2Mat (wrapped x) - get_DesTraj tf.

(** The quadratic form [d^T P d], read off the 1x1 product as the code
    does with [[0]], and the terminal cost of a sample [x] taken at the end
    of the window the object's [m_lofx] reports. *)
Definition quad_form (d : 'cV[R]_xlen) : R := (d^T *m P *m d) 0 0.

Definition terminal (c : cost) (x : state_type) : R :=
  quad_form (err_vec (lofx_end (m_lofx c)) x).

(** The object after the two reads of the window. *)
Definition window_read (c : cost) : cost :=
  set_tf_ (set_t0_ c (lofx_begin (m_lofx c))) (lofx_end (m_lofx c)).

(** The object after the whole terminal pipeline has run on a sample [x]. *)
Definition scratch (c : cost) (x : state_type) : cost :=
  {| J1_ := J1_ c; x_tf_ := wrapped x;
     t0_ := lofx_begin (m_lofx c); tf_ := lofx_end (m_lofx c);
     J1steps_ := J1steps_ c;
     mx_tf_ := State2Mat (wrapped x);
     mxdes_tf_ := get_DesTraj (lofx_end (m_lofx c));
     indx_ := wrap_size_;
     m_lofx := m_lofx c; m_x_intp := m_x_intp c |}.

(** The accumulator as [update] seeds it, and the call of the integrator
    that [compute_cost] makes on it. *)
Definition seeded (c : cost) (x : state_type) : state_type :=
  vec_set 0 (terminal c x) (J1_ c).

Definition integrated (c : cost) (x : state_type) : state_type * result nat :=
  integrate_adaptive tol tol (m_lofx c) (seeded c x)
    (lofx_begin (m_lofx c)) (lofx_end (m_lofx c) - eps) dt0.

(** The quadratic form as the glossary writes it, entry by entry. *)
Definition quad_form_sum (d : 'cV[R]_xlen) : R :=
  \sum_i \sum_j d i 0 * P i j * d j 0.

(** A column vector as the sequence of its entries, a matrix as the
    sequence of its rows. *)
Definition entries (v : 'cV[R]_xlen) : seq R :=
  [seq v i 0 | i <- enum 'I_xlen].

Definition rows (A : 'M[R]_xlen) : seq (seq R) :=
  [seq [seq A i j | j <- enum 'I_xlen] | i <- enum 'I_xlen].

Definition pos_semidef : Prop :=
  P^T = P /\ forall v : 'cV[R]_xlen, 0 <= quad_form_sum v.

Definition pos_def : Prop :=
  P^T = P /\ forall v : 'cV[R]_xlen, v != 0 -> 0 < quad_form_sum v.

(** odeint's [integrate_adaptive] steps forward only: its loop is guarded by
    [less_with_sign(start_time, end_time, dt)], so with a positive first
    step and an end time that is not after the start time it takes no step
    and returns the state as it got it. *)
Definition forward_only_guard : Prop :=
  forall (abs rel : R) (sys : inc_cost) (s : state_type) (a b dt : R),
    0 < dt -> b <= a ->
    integrate_adaptive abs rel sys s a b dt = (s, Ok 0%N).

(** odeint integrates the state in place and never resizes it. *)
Definition integrator_keeps_size : Prop :=
  forall (abs rel : R) (sys : inc_cost) (s : state_type) (a b dt : R),
    size (integrate_adaptive abs rel sys s a b dt).1 = size s.

(** Modelled from the spec: [AngleWrap] is called by cost.hpp and defined
    elsewhere.  Section 4.1 has it rewrite a component to an equivalent
    value within a canonical periodic range, such as (-pi, pi]: with [h]
    half the period, the range is (-h, h] and two values are the same angle
    when they differ by a whole number of periods. *)
Definition canonical (h theta : R) : Prop := - h < theta <= h.

Definition same_angle (h a b : R) : Prop :=
  exists k : int, b = a + k%:~R * (h *+ 2).

Definition AngleWrap_contract (h : R) : Prop :=
  forall theta : R,
    canonical h (AngleWrap theta) /\ same_angle h theta (AngleWrap theta).

(** The caller changes what the two collaborators hold (a new trajectory,
    a new window) between two calls. *)
Definition rebind (c : cost) (l : inc_cost) (ip : state_intp) : cost :=
  Cost (J1_ c) (x_tf_ c) (t0_ c) (tf_ c) (J1steps_ c) (mx_tf_ c) (mxdes_tf_ c)
       (indx_ c) l ip.

(** A sequence of calls of [get_dmdx], each on the collaborators the caller
    has set up for it; a call that throws leaves the object to the next. *)
Fixpoint dmdx_calls (w : seq (inc_cost * state_intp)) (c : cost) : cost :=
  match w with
  | [::] => c
  | (l, ip) :: w' => dmdx_calls w' (get_dmdx (rebind c l ip)).2
  end.

(** The three member functions that run the terminal pipeline, and a use of
    the object: a sequence of calls, the caller setting up the two
    collaborators before each; a call that throws leaves the object to the
    next. *)
Inductive member : Type := Update | GetTermCost | GetDmdx.

Definition is_update (m : member) : bool :=
  match m with Update => true | _ => false end.

Definition call_member (m : member) (c : cost) : cost :=
  match m with
  | Update => (update c).2
  | GetTermCost => (get_term_cost c).2
  | GetDmdx => (get_dmdx c).2
  end.

Fixpoint use (w : seq (inc_cost * state_intp * member)) (c : cost) : cost :=
  match w with
  | [::] => c
  | (l, ip, m) :: w' => use w' (call_member m (rebind c l ip))
  end.

(** ** Running the member functions *)

Lemma wrap_loop_run (n : nat) (c : cost) :
  (indx_ c + n <= size x_wrap)%N ->
  wrap_loop n c =
  (Ok tt,
   set_indx_
     (set_x_tf_ c (foldl (fun v k => vec_modify AngleWrap k v) (x_tf_ c)
                     (take n (drop (indx_ c) x_wrap))))
     (indx_ c + n)).
Proof.
elim: n c => [|n IH] c Hn.
  by rewrite /= take0 addn0; case: c {Hn}.
have Hi : (indx_ c < size x_wrap)%N.
  by apply: leq_trans Hn; rewrite addnS ltnS leq_addr.
rewrite [in RHS](drop_nth 0%N Hi) [wrap_loop _]/= /Obj.bind /wrap_body.
rewrite /Obj.modify IH /= ?addSn -?addnS //.
Qed.

Lemma wrap_angles_run (c : cost) :
  wrap_angles c =
  (Ok tt, set_indx_ (set_x_tf_ c (wrapped (x_tf_ c))) wrap_size_).
Proof.
rewrite /wrap_angles /Obj.bind /Obj.modify wrap_loop_run /= ?add0n //.
by rewrite drop0 take_size.
Qed.

Lemma get_term_cost_ok (c : cost) (x : state_type) :
  sample (m_x_intp c) (lofx_end (m_lofx c)) = Ok x ->
  get_term_cost c = (Ok (terminal c x), scratch c x).
Proof.
move=> Hx; rewrite /get_term_cost /Obj.bind /Obj.modify /Obj.get /Obj.call /=.
by rewrite Hx wrap_angles_run.
Qed.

Lemma get_term_cost_throw (c : cost) :
  sample (m_x_intp c) (lofx_end (m_lofx c)) = Throw ->
  get_term_cost c = (Throw, window_read c).
Proof.
move=> Hx; rewrite /get_term_cost /Obj.bind /Obj.modify /Obj.get /Obj.call /=.
by rewrite Hx.
Qed.

Lemma get_dmdx_ok (c : cost) (x : state_type) :
  sample (m_x_intp c) (lofx_end (m_lofx c)) = Ok x ->
  get_dmdx c =
  (Ok ((err_vec (lofx_end (m_lofx c)) x)^T *m P), scratch c x).
Proof.
move=> Hx; rewrite /get_dmdx /Obj.bind /Obj.modify /Obj.get /Obj.call /=.
by rewrite Hx wrap_angles_run.
Qed.

Lemma get_dmdx_throw (c : cost) :
  sample (m_x_intp c) (lofx_end (m_lofx c)) = Throw ->
  get_dmdx c = (Throw, window_read c).
Proof.
move=> Hx; rewrite /get_dmdx /Obj.bind /Obj.modify /Obj.get /Obj.call /=.
by rewrite Hx.
Qed.

Lemma update_run (c : cost) (x : state_type) :
  sample (m_x_intp c) (lofx_end (m_lofx c)) = Ok x ->
  update c =
  match integrated c x with
  | (J, Ok n) => (Ok tt, set_J1steps_ (set_J1_ (scratch c x) J) n)
  | (J, Throw) => (Throw, set_J1_ (scratch c x) J)
  end.
Proof.
move=> Hx; rewrite /update /Obj.bind {1 2}/Obj.modify.
have Hx' : sample (m_x_intp (window_read c))
             (lofx_end (m_lofx (window_read c))) = Ok x by [].
rewrite -/(window_read c) (get_term_cost_ok Hx') /Obj.modify /compute_cost.
rewrite /Obj.bind /Obj.get /= -/(terminal c x) -/(seeded c x).
rewrite -/(integrated c x).
by case: (integrated c x) => J [n|].
Qed.

Lemma update_throw (c : cost) :
  sample (m_x_intp c) (lofx_end (m_lofx c)) = Throw ->
  update c = (Throw, window_read c).
Proof.
move=> Hx; rewrite /update /Obj.bind {1 2}/Obj.modify.
have Hx' : sample (m_x_intp (window_read c))
             (lofx_end (m_lofx (window_read c))) = Throw by [].
by rewrite -/(window_read c) (get_term_cost_throw Hx').
Qed.

Lemma seeded_one (c : cost) (x : state_type) :
  size (J1_ c) = 1%N -> seeded c x = [:: terminal c x].
Proof. by rewrite /seeded; case: (J1_ c) => [|j [|? ?]]. Qed.

Lemma eps_gt0 : 0 < eps.
Proof. by rewrite /eps invr_gt0 exprn_gt0 // ltr0n. Qed.

Lemma eps_lt1 : eps < 1.
Proof.
by rewrite /eps invf_lt1 ?exprn_gt0 ?ltr0n // exprn_egt1 ?ltr1n.
Qed.

Lemma dt0_gt0 : 0 < dt0.
Proof. by rewrite /dt0 invr_gt0 ltr0n. Qed.

(** ** [update]: what is stored *)


Lemma update_no_step (c : cost) (x : state_type) :
  forward_only_guard ->
  size (J1_ c) = 1%N ->
  lofx_end (m_lofx c) - eps <= lofx_begin (m_lofx c) ->
  sample (m_x_intp c) (lofx_end (m_lofx c)) = Ok x ->
  integrated c x = ([:: terminal c x], Ok 0%N) /\
  update c =
  (Ok tt, set_J1steps_ (set_J1_ (scratch c x) [:: terminal c x]) 0%N).
Proof.
move=> Hg H1 Hw Hx.
have Hi : integrated c x = ([:: terminal c x], Ok 0%N).
  by rewrite /integrated (seeded_one _ H1) Hg // dt0_gt0.
by rewrite (update_run Hx) Hi.
Qed.

(** C4.  On a window of length zero ([t0 == tf]) whose end can be sampled,
    [update()] stores exactly the terminal cost at [tf] and the step count
    0, and the integrator hands the seeded accumulator back as it got it.
    The integrator is called from [t0] to [tf - eps], an end time before
    the start time: it is odeint's forward-only loop guard that makes it
    return at once. *)
Theorem update_zero_length_window (c : cost) (x : state_type) :
  forward_only_guard ->
  size (J1_ c) = 1%N ->
  lofx_begin (m_lofx c) = lofx_end (m_lofx c) ->
  sample (m_x_intp c) (lofx_end (m_lofx c)) = Ok x ->
  [/\ (get_term_cost c).1 = Ok (terminal c x),
      (update c).1 = Ok tt,
      operator_double (update c).2 = Some (terminal c x)
    & steps (update c).2 = 0%N ] /\
  [/\ integrated c x = (seeded c x, Ok 0%N)
    & lofx_end (m_lofx c) - eps < lofx_begin (m_lofx c) ].
Proof.
move=> Hg H1 Hw Hx.
have Hlt : lofx_end (m_lofx c) - eps < lofx_begin (m_lofx c).
  by rewrite Hw gtrBl eps_gt0.
have [Hi Hu] := update_no_step Hg H1 (ltW Hlt) Hx.
by rewrite (get_term_cost_ok Hx) Hu (seeded_one _ H1) Hi.
Qed.

(** [update] has no failure of its own: an exception that escapes it is one
    that escaped the interpolator or the integrator. *)
Lemma update_throws_iff (c : cost) :
  (update c).1 = Throw <->
  sample (m_x_intp c) (lofx_end (m_lofx c)) = Throw \/
  exists2 x, sample (m_x_intp c) (lofx_end (m_lofx c)) = Ok x
           & (integrated c x).2 = Throw.
Proof.
case Hx: (sample (m_x_intp c) (lofx_end (m_lofx c))) => [x|]; last first.
  by rewrite (update_throw Hx); split=> // _; left.
rewrite (update_run Hx); split.
  case Hi: (integrated c x) => [J [n|]] //= _.
  by right; exists x => //; rewrite Hi.
case=> // -[y [<-]].
by case: (integrated c x) => J [n|].
Qed.

(** C5, as the code has it.  [update()] does not look at the order of the
    bounds.  On a window with [t0 > tf] whose end can be sampled it calls
    the integrator from [t0] to [tf - eps] like on any other window; under
    odeint's forward-only loop guard the integrator takes no step, and
    [update()] returns normally with the terminal cost at [tf] stored as
    total cost and 0 as step count. *)
Theorem update_backward_window (c : cost) (x : state_type) :
  forward_only_guard ->
  size (J1_ c) = 1%N ->
  lofx_end (m_lofx c) < lofx_begin (m_lofx c) ->
  sample (m_x_intp c) (lofx_end (m_lofx c)) = Ok x ->
  [/\ (update c).1 = Ok tt,
      operator_double (update c).2 = Some (terminal c x),
      steps (update c).2 = 0%N,
      t0_ (update c).2 = lofx_begin (m_lofx c)
    & tf_ (update c).2 = lofx_end (m_lofx c) ].
Proof.
move=> Hg H1 Hw Hx.
have Hle : lofx_end (m_lofx c) - eps <= lofx_begin (m_lofx c).
  by apply: ltW; apply: lt_trans Hw; rewrite gtrBl eps_gt0.
by have [_ ->] := update_no_step Hg H1 Hle Hx.
Qed.

(** C6, as the code has it.  A freshly constructed object already holds a
    total cost: the constructor value-initialises the one-element
    accumulator, so the conversion to [double] returns [0.0] (and [steps()]
    returns 0) before any [update()].  After an [update()] that returned,
    the conversion returns the first element of what the integrator left in
    the accumulator at that call, the total cost computed last. *)
Theorem operator_double_defined
  (x_intp : state_intp) (mx0 : 'cV[R]_xlen) (indx0 : nat)
  (c : cost) (x : state_type) :
  sample (m_x_intp c) (lofx_end (m_lofx c)) = Ok x ->
  (update c).1 = Ok tt ->
  [/\ operator_double (cost_ctor x_intp mx0 indx0) = Some 0,
      steps (cost_ctor x_intp mx0 indx0) = 0%N,
      operator_double (update c).2 = ohead (integrated c x).1
    & (integrated c x).2 = Ok (steps (update c).2) ].
Proof.
move=> Hx; rewrite (update_run Hx).
by case: (integrated c x) => J [n|].
Qed.

(** The accumulator keeps its single element through every member
    function. *)
Lemma size_J1_ctor (x_intp : state_intp) (mx0 : 'cV[R]_xlen) (indx0 : nat) :
  size (J1_ (cost_ctor x_intp mx0 indx0)) = 1%N.
Proof. by []. Qed.

Lemma size_J1_update (c : cost) :
  integrator_keeps_size ->
  size (J1_ c) = 1%N -> size (J1_ (update c).2) = 1%N.
Proof.
move=> Hk H1.
case Hx: (sample (m_x_intp c) (lofx_end (m_lofx c))) => [x|]; last first.
  by rewrite (update_throw Hx).
have := Hk tol tol (m_lofx c) (seeded c x) (lofx_begin (m_lofx c))
          (lofx_end (m_lofx c) - eps) dt0.
rewrite (update_run Hx) -/(integrated c x) (seeded_one _ H1).
by case: (integrated c x) => J [n|].
Qed.

Lemma update_twice (c : cost) :
  integrator_keeps_size ->
  size (J1_ c) = 1%N ->
  update (update c).2 = update c.
Proof.
move=> Hk H1.
case Hx: (sample (m_x_intp c) (lofx_end (m_lofx c))) => [x|]; last first.
  have Hx' : sample (m_x_intp (window_read c))
               (lofx_end (m_lofx (window_read c))) = Throw by [].
  by rewrite (update_throw Hx) (update_throw Hx').
rewrite (update_run Hx).
have := Hk tol tol (m_lofx c) (seeded c x) (lofx_begin (m_lofx c))
          (lofx_end (m_lofx c) - eps) dt0.
rewrite -/(integrated c x) (seeded_one _ H1) /=.
case Hi: (integrated c x) => [J r] /= HJ.
have Hrun : forall c', m_lofx c' = m_lofx c -> m_x_intp c' = m_x_intp c ->
    J1_ c' = J -> integrated c' x = (J, r) /\ scratch c' x =
    Cost J (x_tf_ (scratch c x)) (t0_ (scratch c x)) (tf_ (scratch c x))
         (J1steps_ c') (mx_tf_ (scratch c x)) (mxdes_tf_ (scratch c x))
         (indx_ (scratch c x)) (m_lofx c) (m_x_intp c).
  move=> c' Hl Hp HJ'; split; last by rewrite /scratch Hl Hp HJ'.
  rewrite -Hi /integrated (seeded_one _ H1) /seeded /terminal Hl HJ'.
  by case: (J) HJ => [|j [|? ?]].
case: r Hi Hrun => [n|] Hi Hrun.
  set c1 := set_J1steps_ _ _.
  have Hx1 : sample (m_x_intp c1) (lofx_end (m_lofx c1)) = Ok x by [].
  have [Hi1 Hs1] := Hrun c1 erefl erefl erefl.
  by rewrite (update_run Hx1) Hi1 Hs1.
set c1 := set_J1_ _ _.
have Hx1 : sample (m_x_intp c1) (lofx_end (m_lofx c1)) = Ok x by [].
have [Hi1 Hs1] := Hrun c1 erefl erefl erefl.
by rewrite (update_run Hx1) Hi1 Hs1.
Qed.

(** C7.  With the collaborators as they are, every [update()] after a first
    one returns (or throws) as the first did and leaves the whole object,
    total cost and step count included, as the first left it: however many
    calls [n] have followed the first, the object is the one the first call
    left, and one more call stores the same total cost and the same step
    count again. *)
Theorem update_idempotent (c : cost) (n : nat) :
  integrator_keeps_size ->
  size (J1_ c) = 1%N ->
  let c1 := (update c).2 in
  let cn := iter n (fun c' => (update c').2) c1 in
  [/\ cn = c1,
      (update cn).1 = (update c).1,
      operator_double (update cn).2 = operator_double c1
    & steps (update cn).2 = steps c1 ].
Proof.
move=> Hk H1 /=.
have Hn : iter n (fun c' => (update c').2) (update c).2 = (update c).2.
  by elim: n => [|n IH] //=; rewrite IH update_twice.
by rewrite Hn update_twice.
Qed.

(** C8.  [update()], [get_term_cost()] and [get_dmdx()] each begin by
    reading [begin()] and [end()] of [m_lofx] into [t0_] and [tf_]: after
    the call, returned or thrown, the two members hold what [m_lofx]
    reports at the call, and whatever bounds an earlier call had left in
    them has no part in the outcome or in the object the call leaves. *)
Theorem window_bounds_reread (c : cost) (t0' tf' : R) :
  let stale := set_tf_ (set_t0_ c t0') tf' in
  [/\ update stale = update c,
      get_term_cost stale = get_term_cost c
    & get_dmdx stale = get_dmdx c ] /\
  [/\ t0_ (update c).2 = lofx_begin (m_lofx c) /\
      tf_ (update c).2 = lofx_end (m_lofx c),
      t0_ (get_term_cost c).2 = lofx_begin (m_lofx c) /\
      tf_ (get_term_cost c).2 = lofx_end (m_lofx c)
    & t0_ (get_dmdx c).2 = lofx_begin (m_lofx c) /\
      tf_ (get_dmdx c).2 = lofx_end (m_lofx c) ].
Proof.
split; first by split.
case Hx: (sample (m_x_intp c) (lofx_end (m_lofx c))) => [x|]; last first.
  by rewrite (update_throw Hx) (get_term_cost_throw Hx) (get_dmdx_throw Hx).
rewrite (update_run Hx) (get_term_cost_ok Hx) (get_dmdx_ok Hx).
by case: (integrated c x) => J [n|].
Qed.

(** ** The terminal cost and its gradient *)

Lemma quad_formE (d : 'cV[R]_xlen) : quad_form d = quad_form_sum d.
Proof.
rewrite /quad_form /quad_form_sum mxE exchange_big /=.
apply: eq_bigr => j _; rewrite mxE big_distrl /=.
by apply: eq_bigr => i _; rewrite mxE.
Qed.

Lemma quad_form_sum0 : quad_form_sum 0 = 0.
Proof.
rewrite /quad_form_sum big1 // => i _.
by rewrite big1 // => j _; rewrite mxE !mul0r.
Qed.

Lemma foldl_sum (f : nat -> R) (s : seq nat) (a : R) :
  foldl (fun acc i => acc + f i) a s = a + \sum_(i <- s) f i.
Proof.
elim: s a => [|i s IH] a /=; first by rewrite big_nil addr0.
by rewrite IH big_cons addrA.
Qed.

Lemma size_entries (v : 'cV[R]_xlen) : size (entries v) = xlen.
Proof. by rewrite size_map size_enum_ord. Qed.

Lemma nth_entries (v : 'cV[R]_xlen) (i : 'I_xlen) :
  nth 0 (entries v) i = v i 0.
Proof. by rewrite (nth_map i) ?size_enum_ord // nth_ord_enum. Qed.

Lemma nth_rows (A : 'M[R]_xlen) (i j : 'I_xlen) :
  nth 0 (nth [::] (rows A) i) j = A i j.
Proof.
rewrite (nth_map i) ?size_enum_ord // nth_ord_enum.
by rewrite (nth_map j) ?size_enum_ord // nth_ord_enum.
Qed.

Lemma entries_sub (u v : 'cV[R]_xlen) :
  vec_sub (fun a b => a - b) (entries u) (entries v) = entries (u - v).
Proof.
rewrite /vec_sub /entries zip_map -map_comp.
by apply: eq_map => i /=; rewrite !mxE.
Qed.

(** Over exact arithmetic the expression is the quadratic form. *)
Lemma quad_form_of_entries (v : 'cV[R]_xlen) :
  quad_form_of 0 +%R *%R (entries v) (rows P) = quad_form_sum v.
Proof.
have Hiota : iota 0 xlen = index_iota 0 xlen by rewrite /index_iota subn0.
rewrite /quad_form_of /row_times foldl_sum add0r size_entries /quad_form_sum.
rewrite Hiota big_mkord exchange_big /=.
apply: eq_bigr => j _; rewrite foldl_sum add0r.
rewrite big_mkord big_distrl /=.
by apply: eq_bigr => i _; rewrite !nth_entries nth_rows.
Qed.

Lemma term_cost_of_entries (u v : 'cV[R]_xlen) :
  term_cost_of 0 +%R (fun a b => a - b) *%R (entries u) (entries v) (rows P)
  = quad_form (u - v).
Proof. by rewrite /term_cost_of entries_sub quad_form_of_entries quad_formE. Qed.

(** The quadratic form in exact arithmetic.  When the sample at [tf] is
    there, the value [get_term_cost()] returns, read in the real field
    [R], is the entrywise double sum; there it is non-negative for a
    symmetric positive-semidefinite [P], and for a symmetric
    positive-definite [P] it is zero exactly when the projected state
    equals the desired state.  These are facts of the exact form, not of
    its evaluation in [double]. *)
Theorem get_term_cost_quadratic (c : cost) (x : state_type) :
  sample (m_x_intp c) (lofx_end (m_lofx c)) = Ok x ->
  let xp := State2Mat (wrapped x) in
  let xdes := get_DesTraj (lofx_end (m_lofx c)) in
  [/\ (get_term_cost c).1 = Ok (((xp - xdes)^T *m P *m (xp - xdes)) 0 0),
      (get_term_cost c).1 = Ok (quad_form_sum (xp - xdes)),
      pos_semidef -> 0 <= quad_form_sum (xp - xdes)
    & pos_def -> (quad_form_sum (xp - xdes) = 0 <-> xp = xdes) ].
Proof.
move=> Hx xp xdes; rewrite (get_term_cost_ok Hx) /= /terminal.
rewrite -/(quad_form _) quad_formE; split=> //; first by case.
case=> _ Hpd; split=> [H0|->]; last by rewrite subrr quad_form_sum0.
apply/eqP; rewrite -subr_eq0; apply/negPn/negP => /Hpd.
by rewrite [X in quad_form_sum X]/= H0 ltxx.
Qed.

(** C2, as the code has it.  When the sample at [tf] is there,
    [get_term_cost()] returns the quadratic form
    [(x - x_des)^T P (x - x_des)] of the error between the projected,
    angle-wrapped sample and the desired state at [tf]: the expression
    [term_cost_of] of the two vectors and [P], which the code computes in
    [double].  On doubles, with finite entries in the vectors and in [P],
    the expression is exactly zero (and so not negative) when the
    projected state equals the desired state.  Away from that point the
    sign and the zeros of the result are those of the rounded computation:
    neither non-negativity under a positive-semidefinite [P] nor
    zero-only-if-equal under a positive-definite [P] holds of it. *)
Theorem get_term_cost_double_form (c : cost) (x : state_type) :
  sample (m_x_intp c) (lofx_end (m_lofx c)) = Ok x ->
  let xp := State2Mat (wrapped x) in
  let xdes := get_DesTraj (lofx_end (m_lofx c)) in
  [/\ (get_term_cost c).1 = Ok (((xp - xdes)^T *m P *m (xp - xdes)) 0 0),
      ((xp - xdes)^T *m P *m (xp - xdes)) 0 0
      = term_cost_of 0 +%R (fun a b => a - b) *%R
          (entries xp) (entries xdes) (rows P)
    & forall (mx : seq float) (Pd : seq (seq float)),
        all Binary64.finite_double mx ->
        all (all Binary64.finite_double) Pd ->
        PrimFloat.eqb (Binary64.term_cost_double mx mx Pd) PrimFloat.zero
        = true
        /\ PrimFloat.leb PrimFloat.zero (Binary64.term_cost_double mx mx Pd)
           = true ].
Proof.
move=> Hx xp xdes; rewrite (get_term_cost_ok Hx) term_cost_of_entries.
split=> // mx Pd Hmx HP.
have Hz : Binary64.zero_double (Binary64.term_cost_double mx mx Pd).
  by apply: Binary64.quad_form_zero => //; apply: Binary64.vsub_self_zero.
by rewrite Binary64.zero_eqb // Binary64.zero_leb.
Qed.

(** C3.  When the sample at [tf] is there, [get_dmdx()] returns the row
    vector [(x - x_des)^T P] on the same error vector as [get_term_cost()],
    which is that row times the error; both leave the same object behind.
    The row depends on the object through its two collaborators only:
    whatever earlier calls, at whatever terminal time, have left in the
    scratch members of an object [c'], the call on it returns the same
    row. *)
Theorem get_dmdx_gradient (c c' : cost) (x : state_type) :
  sample (m_x_intp c) (lofx_end (m_lofx c)) = Ok x ->
  m_lofx c' = m_lofx c ->
  m_x_intp c' = m_x_intp c ->
  let xp := State2Mat (wrapped x) in
  let xdes := get_DesTraj (lofx_end (m_lofx c)) in
  [/\ (get_dmdx c).1 = Ok ((xp - xdes)^T *m P),
      (get_term_cost c).1 = Ok (((xp - xdes)^T *m P *m (xp - xdes)) 0 0),
      (get_dmdx c).2 = (get_term_cost c).2
    & (get_dmdx c').1 = (get_dmdx c).1 ].
Proof.
move=> Hx Hl Hp /=.
have Hx' : sample (m_x_intp c') (lofx_end (m_lofx c')) = Ok x.
  by rewrite Hl Hp.
by rewrite (get_dmdx_ok Hx) (get_dmdx_ok Hx') (get_term_cost_ok Hx) Hl.
Qed.

(** ** The angle-wrapping loop: frame and effect *)

Lemma size_vec_modify (T : Type) (f : T -> T) (k : nat) (v : seq T) :
  size (vec_modify f k v) = size v.
Proof. by elim: v k => [|a v IH] [|k] //=; rewrite IH. Qed.

Lemma nth_vec_modify (T : Type) (x0 : T) (f : T -> T) (k i : nat) (v : seq T) :
  (i < size v)%N ->
  nth x0 (vec_modify f k v) i = if i == k then f (nth x0 v i) else nth x0 v i.
Proof. by elim: v k i => [|a v IH] [|k] [|i] //= Hi; rewrite IH. Qed.

Lemma size_foldl_modify (T : Type) (f : T -> T) (ks : seq nat) (v : seq T) :
  size (foldl (fun v k => vec_modify f k v) v ks) = size v.
Proof. by elim: ks v => [|k ks IH] v //=; rewrite IH size_vec_modify. Qed.

Lemma nth_foldl_modify (T : Type) (x0 : T) (f : T -> T) (ks : seq nat)
  (v : seq T) (i : nat) :
  (i < size v)%N ->
  nth x0 (foldl (fun v k => vec_modify f k v) v ks) i
  = iter (count_mem i ks) f (nth x0 v i).
Proof.
elim: ks v => [|k ks IH] v Hi //=.
rewrite IH ?size_vec_modify // nth_vec_modify // eq_sym.
by case: (k == i); rewrite ?add0n // add1n iterSr.
Qed.

Lemma iter_AngleWrap (h : R) (m : nat) (theta : R) :
  AngleWrap_contract h ->
  same_angle h theta (iter m AngleWrap theta) /\
  ((0 < m)%N -> canonical h (iter m AngleWrap theta)).
Proof.
move=> Hc; elim: m => [|m [[k1 Hk1] _]] /=.
  by split=> //; exists 0; rewrite mul0r addr0.
have [Hcan [k2 Hk2]] := Hc (iter m AngleWrap theta).
split=> // ; exists (k1 + k2).
by rewrite Hk2 {1}Hk1 intrD mulrDl addrA.
Qed.

(** C9.  Run on an object whose wrap indices all lie inside [x_tf_], the
    loop keeps the length of [x_tf_], leaves every component whose index is
    not in [x_wrap] exactly as it was, and turns the component at an index
    [k] of [x_wrap] into [AngleWrap] applied to it once per occurrence of
    [k] in the table; no other member than [x_tf_] and the loop counter
    [indx_] changes.  When [AngleWrap] does what section 4.1 asks of it,
    each component indexed by [x_wrap] ends in the canonical range and is
    the same angle as before. *)
Theorem wrap_angles_frame (h : R) (c : cost) :
  all (fun k => (k < size (x_tf_ c))%N) x_wrap ->
  let c' := (wrap_angles c).2 in
  [/\ size (x_tf_ c') = size (x_tf_ c),
      forall k, k \notin x_wrap -> nth 0 (x_tf_ c') k = nth 0 (x_tf_ c) k,
      forall k, k \in x_wrap ->
        nth 0 (x_tf_ c') k
        = iter (count_mem k x_wrap) AngleWrap (nth 0 (x_tf_ c) k),
      set_indx_ (set_x_tf_ c' (x_tf_ c)) (indx_ c) = c
    & AngleWrap_contract h ->
      forall k, k \in x_wrap ->
        canonical h (nth 0 (x_tf_ c') k) /\
        same_angle h (nth 0 (x_tf_ c) k) (nth 0 (x_tf_ c') k) ].
Proof.
move=> /allP Hin; rewrite wrap_angles_run /= /wrapped.
have Hk : forall k, k \in x_wrap ->
    nth 0 (foldl (fun v k => vec_modify AngleWrap k v) (x_tf_ c) x_wrap) k
    = iter (count_mem k x_wrap) AngleWrap (nth 0 (x_tf_ c) k).
  by move=> k /Hin Hlt; rewrite nth_foldl_modify.
split=> //.
- by rewrite size_foldl_modify.
- move=> k Hnot; case: (ltnP k (size (x_tf_ c))) => Hlt.
    by rewrite nth_foldl_modify // (count_memPn Hnot).
  by rewrite !nth_default // size_foldl_modify.
- by case: c {Hin Hk}.
move=> Hc k Hmem; rewrite (Hk _ Hmem).
have [Hs Hcan] := iter_AngleWrap (count_mem k x_wrap) (nth 0 (x_tf_ c) k) Hc.
by split=> //; apply: Hcan; rewrite -has_count has_pred1.
Qed.

(** ** The stored cost is out of reach of the terminal-cost members *)

Lemma get_dmdx_stored (c : cost) :
  J1_ (get_dmdx c).2 = J1_ c /\ J1steps_ (get_dmdx c).2 = J1steps_ c.
Proof.
case Hx: (sample (m_x_intp c) (lofx_end (m_lofx c))) => [x|].
  by rewrite (get_dmdx_ok Hx).
by rewrite (get_dmdx_throw Hx).
Qed.

Lemma get_term_cost_stored (c : cost) :
  J1_ (get_term_cost c).2 = J1_ c /\
  J1steps_ (get_term_cost c).2 = J1steps_ c.
Proof.
case Hx: (sample (m_x_intp c) (lofx_end (m_lofx c))) => [x|].
  by rewrite (get_term_cost_ok Hx).
by rewrite (get_term_cost_throw Hx).
Qed.

(** C10.  Any number of calls of [get_dmdx], whatever the collaborators hold
    at each call and whether or not a call throws, leaves the stored total
    cost and the stored step count as they were: the conversion to [double]
    and [steps()] return after the calls what they returned before them, in
    particular what the last [update()] stored.  The calls do overwrite the
    scratch members: after a call that returns, [x_tf_], [t0_], [tf_] and
    [mxdes_tf_] hold what that call computed. *)
Theorem get_dmdx_keeps_stored_cost (w : seq (inc_cost * state_intp)) (c : cost) :
  [/\ operator_double (dmdx_calls w c) = operator_double c,
      steps (dmdx_calls w c) = steps c,
      operator_double (dmdx_calls w (update c).2) = operator_double (update c).2
    & steps (dmdx_calls w (update c).2) = steps (update c).2 ] /\
  (forall x, sample (m_x_intp c) (lofx_end (m_lofx c)) = Ok x ->
     let c' := (get_dmdx c).2 in
     [/\ x_tf_ c' = wrapped x, t0_ c' = lofx_begin (m_lofx c),
         tf_ c' = lofx_end (m_lofx c)
       & mxdes_tf_ c' = get_DesTraj (lofx_end (m_lofx c)) ]).
Proof.
have keep: forall w c, J1_ (dmdx_calls w c) = J1_ c /\
                       J1steps_ (dmdx_calls w c) = J1steps_ c.
  elim=> [|[l ip] w' IH] c0 //=.
  have [-> ->] := IH (get_dmdx (rebind c0 l ip)).2.
  by have [-> ->] := get_dmdx_stored (rebind c0 l ip).
split; last by move=> x Hx; rewrite /= (get_dmdx_ok Hx).
rewrite /operator_double /steps.
have [-> ->] := keep w c.
by have [-> ->] := keep w (update c).2.
Qed.

(** ** Exceptions: what a call that throws leaves behind *)

(** X1.  When the interpolator throws at [tf], each of [update()],
    [get_term_cost()] and [get_dmdx()] throws with the two window bounds
    written and the rest of the pipeline not run: the stored total cost,
    the step count, the two projected vectors and the loop counter are
    those of before the call. *)
Theorem sample_throw_frame (c : cost) :
  sample (m_x_intp c) (lofx_end (m_lofx c)) = Throw ->
  [/\ (update c).1 = Throw,
      (get_term_cost c).1 = Throw,
      (get_dmdx c).1 = Throw
    & forall m : member,
        [/\ J1_ (call_member m c) = J1_ c,
            J1steps_ (call_member m c) = J1steps_ c,
            mx_tf_ (call_member m c) = mx_tf_ c,
            mxdes_tf_ (call_member m c) = mxdes_tf_ c
          & indx_ (call_member m c) = indx_ c ] /\
        t0_ (call_member m c) = lofx_begin (m_lofx c) /\
        tf_ (call_member m c) = lofx_end (m_lofx c) ].
Proof.
move=> Hx.
rewrite (update_throw Hx) (get_term_cost_throw Hx) (get_dmdx_throw Hx).
split=> // -[] /=.
- by rewrite (update_throw Hx).
- by rewrite (get_term_cost_throw Hx).
- by rewrite (get_dmdx_throw Hx).
Qed.

(** X2.  When the sample at [tf] is there and the integrator throws,
    [update()] throws after the accumulator has been seeded and integrated
    in place: [J1_] holds what the integrator left in it, while the step
    count is still the one of the last call that returned, and the scratch
    members are those of the terminal pipeline. *)
Theorem integrator_throw_state (c : cost) (x : state_type) :
  sample (m_x_intp c) (lofx_end (m_lofx c)) = Ok x ->
  (integrated c x).2 = Throw ->
  [/\ (update c).1 = Throw,
      J1_ (update c).2 = (integrated c x).1,
      steps (update c).2 = steps c,
      x_tf_ (update c).2 = wrapped x
    & (get_term_cost c).1 = Ok (terminal c x) ].
Proof.
move=> Hx; rewrite (update_run Hx) (get_term_cost_ok Hx).
by case: (integrated c x) => J [n|].
Qed.

(** X3.  The member functions have no failure of their own:
    [get_term_cost()] and [get_dmdx()] throw exactly when the interpolator
    throws at [tf], and [update()] exactly when the interpolator throws at
    [tf] or the integrator throws on the seeded accumulator. *)
Theorem member_throws_iff (c : cost) :
  [/\ (get_term_cost c).1 = Throw <->
      sample (m_x_intp c) (lofx_end (m_lofx c)) = Throw,
      (get_dmdx c).1 = Throw <->
      sample (m_x_intp c) (lofx_end (m_lofx c)) = Throw
    & (update c).1 = Throw <->
      sample (m_x_intp c) (lofx_end (m_lofx c)) = Throw \/
      exists2 x, sample (m_x_intp c) (lofx_end (m_lofx c)) = Ok x
               & (integrated c x).2 = Throw ].
Proof.
split; last exact: update_throws_iff.
  case Hx: (sample (m_x_intp c) (lofx_end (m_lofx c))) => [x|].
    by rewrite (get_term_cost_ok Hx).
  by rewrite (get_term_cost_throw Hx).
case Hx: (sample (m_x_intp c) (lofx_end (m_lofx c))) => [x|].
  by rewrite (get_dmdx_ok Hx).
by rewrite (get_dmdx_throw Hx).
Qed.

(** ** Windows no longer than [eps] *)

(** X4.  [compute_cost] stops the integration [eps = 1E-7] short of [tf]:
    on every window whose length [tf - t0] is at most [eps], of positive
    length or not, the integrator is called with an end time that is not
    after its start time.  Under odeint's forward-only loop guard it takes
    no step, and [update()] stores the terminal cost alone with 0 steps:
    the running cost over such a window is left out. *)
Theorem update_short_window (c : cost) (x : state_type) :
  forward_only_guard ->
  size (J1_ c) = 1%N ->
  lofx_end (m_lofx c) - lofx_begin (m_lofx c) <= (10%:R ^+ 7)^-1 ->
  sample (m_x_intp c) (lofx_end (m_lofx c)) = Ok x ->
  [/\ (update c).1 = Ok tt,
      operator_double (update c).2 = Some (terminal c x),
      steps (update c).2 = 0%N
    & (integrated c x).1 = seeded c x ].
Proof.
move=> Hg H1 Hw Hx.
have Hle : lofx_end (m_lofx c) - eps <= lofx_begin (m_lofx c).
  by rewrite lerBlDl -lerBlDr.
have [Hi ->] := update_no_step Hg H1 Hle Hx.
by rewrite Hi (seeded_one _ H1).
Qed.

(** ** Invariants over a use of the object *)

Lemma size_J1_call (m : member) (c : cost) :
  integrator_keeps_size ->
  size (J1_ c) = 1%N -> size (J1_ (call_member m c)) = 1%N.
Proof.
move=> Hk H1; case: m => /=.
- exact: size_J1_update.
- by have [-> _] := get_term_cost_stored c.
- by have [-> _] := get_dmdx_stored c.
Qed.

(** X5.  From the constructor on, through any sequence of [update()],
    [get_term_cost()] and [get_dmdx()] calls, returned or thrown, on
    whatever collaborators, the accumulator [J1_] holds exactly one
    element, given that the integrator does not resize the state it is
    handed: the read [J1_[0]] of the conversion to [double] is always in
    bounds. *)
Theorem accumulator_one_element
  (w : seq (inc_cost * state_intp * member))
  (x_intp : state_intp) (mx0 : 'cV[R]_xlen) (indx0 : nat) :
  integrator_keeps_size ->
  let c := use w (cost_ctor x_intp mx0 indx0) in
  size (J1_ c) = 1%N /\ exists j, operator_double c = Some j.
Proof.
move=> Hk /=.
have Hw : forall c, size (J1_ c) = 1%N -> size (J1_ (use w c)) = 1%N.
  elim: w => [|[[l ip] m] w IH] c H1 //=.
  by apply: IH; apply: size_J1_call.
have := Hw _ (size_J1_ctor x_intp mx0 indx0).
rewrite /operator_double.
by case: (J1_ _) => [|j [|? ?]] // _; split=> //; exists j.
Qed.

(** X6.  Only [update()] writes the stored cost: a sequence of
    [get_term_cost()] and [get_dmdx()] calls in any order, returned or
    thrown, on whatever collaborators, leaves what the conversion to
    [double] and [steps()] return as it was. *)
Theorem stored_cost_written_by_update_only
  (w : seq (inc_cost * state_intp * member)) (c : cost) :
  ~~ has (fun e => is_update e.2) w ->
  operator_double (use w c) = operator_double c /\ steps (use w c) = steps c.
Proof.
rewrite /operator_double /steps.
elim: w c => [|[[l ip] m] w IH] c //=; rewrite negb_or => /andP[Hm Hw].
have [-> ->] := IH (call_member m (rebind c l ip)) Hw.
case: m Hm => //= _.
  by have [-> ->] := get_term_cost_stored (rebind c l ip).
by have [-> ->] := get_dmdx_stored (rebind c l ip).
Qed.

(** ** How the member functions compose *)

(** X7.  Once [update()] has run on a sample at [tf], whether the
    integrator returned or threw, the scratch members are in place: a
    [get_term_cost()] or a [get_dmdx()] that follows on the same
    collaborators returns the terminal cost the accumulator was seeded
    with, respectively its gradient row, and leaves the whole object as
    [update()] left it. *)
Theorem terminal_members_after_update (c : cost) (x : state_type) :
  sample (m_x_intp c) (lofx_end (m_lofx c)) = Ok x ->
  [/\ get_term_cost (update c).2 = (Ok (terminal c x), (update c).2),
      get_dmdx (update c).2
      = (Ok ((err_vec (lofx_end (m_lofx c)) x)^T *m P), (update c).2)
    & get_dmdx (get_term_cost c).2
      = (Ok ((err_vec (lofx_end (m_lofx c)) x)^T *m P), (get_term_cost c).2) ].
Proof.
move=> Hx; rewrite (update_run Hx) (get_term_cost_ok Hx).
have Hs : sample (m_x_intp (scratch c x)) (lofx_end (m_lofx (scratch c x)))
          = Ok x by [].
case: (integrated c x) => J [n|] /=.
- set c1 := set_J1steps_ _ _.
  have Hx1 : sample (m_x_intp c1) (lofx_end (m_lofx c1)) = Ok x by [].
  by rewrite (get_term_cost_ok Hx1) (get_dmdx_ok Hx1) (get_dmdx_ok Hs).
- set c1 := set_J1_ _ _.
  have Hx1 : sample (m_x_intp c1) (lofx_end (m_lofx c1)) = Ok x by [].
  by rewrite (get_term_cost_ok Hx1) (get_dmdx_ok Hx1) (get_dmdx_ok Hs).
Qed.

(** X11.  At the desired state the terminal cost and its gradient vanish,
    whatever the weight [P]: when the projected, angle-wrapped sample at
    [tf] equals the desired state at [tf], [get_term_cost()] returns 0 and
    [get_dmdx()] the zero row. *)
Theorem terminal_cost_at_desired_state (c : cost) (x : state_type) :
  sample (m_x_intp c) (lofx_end (m_lofx c)) = Ok x ->
  State2Mat (wrapped x) = get_DesTraj (lofx_end (m_lofx c)) ->
  (get_term_cost c).1 = Ok 0 /\ (get_dmdx c).1 = Ok 0.
Proof.
move=> Hx Hd; rewrite (get_term_cost_ok Hx) (get_dmdx_ok Hx) /=.
rewrite /terminal /quad_form /err_vec Hd subrr trmx0 !mul0mx.
by rewrite mxE.
Qed.

(** ** The wrap table: multiplicity and order *)

Lemma foldl_modify_perm (T : Type) (f : T -> T) (ks ks' : seq nat)
  (v : seq T) :
  perm_eq ks ks' ->
  foldl (fun v k => vec_modify f k v) v ks
  = foldl (fun v k => vec_modify f k v) v ks'.
Proof.
move=> /permP Hp; case: v => [|a v].
  have Hnil ks0 : foldl (fun v k => vec_modify f k v) [::] ks0 = [::].
    by apply: size0nil; rewrite size_foldl_modify.
  by rewrite !Hnil.
apply: (@eq_from_nth _ a); first by rewrite !size_foldl_modify.
move=> i; rewrite size_foldl_modify => Hi.
by rewrite !nth_foldl_modify // Hp.
Qed.

(** X10.  When [AngleWrap] is idempotent, listing an index more than once
    in [x_wrap] changes nothing: run on an object whose wrap indices all
    lie inside [x_tf_], the loop leaves at each index of the table
    [AngleWrap] of the component, applied once, and running the loop a
    second time leaves [x_tf_] as the first run left it. *)
Theorem wrap_angles_idempotent (c : cost) :
  (forall theta, AngleWrap (AngleWrap theta) = AngleWrap theta) ->
  all (fun k => (k < size (x_tf_ c))%N) x_wrap ->
  (forall k, k \in x_wrap ->
     nth 0 (x_tf_ (wrap_angles c).2) k = AngleWrap (nth 0 (x_tf_ c) k)) /\
  x_tf_ (wrap_angles (wrap_angles c).2).2 = x_tf_ (wrap_angles c).2.
Proof.
move=> Hid /allP Hin.
have Hit : forall m theta, iter m.+1 AngleWrap theta = AngleWrap theta.
  by elim=> [|m IH] theta //; rewrite iterS IH Hid.
have Hm : forall k, k \in x_wrap -> count_mem k x_wrap = (count_mem k x_wrap).-1.+1.
  by move=> k Hk; rewrite prednK // -has_count has_pred1.
rewrite !wrap_angles_run /= /wrapped; split=> [k Hk|].
  by rewrite nth_foldl_modify ?Hin // (Hm _ Hk) Hit.
apply: (@eq_from_nth _ 0); first by rewrite !size_foldl_modify.
move=> i; rewrite !size_foldl_modify => Hi.
rewrite nth_foldl_modify ?size_foldl_modify // nth_foldl_modify //.
case Hk: (i \in x_wrap); last by rewrite (count_memPn (negbT Hk)).
by rewrite (Hm _ Hk) !Hit Hid.
Qed.

End Cost.

Section WrapOrder.

Variable R : realFieldType.
Variable xlen : nat.
Variables inc_cost state_intp : Type.
Variables lofx_begin lofx_end : inc_cost -> R.
Variable sample : state_intp -> R -> result (state_type R).
Variable AngleWrap : R -> R.
Variable State2Mat : state_type R -> 'cV[R]_xlen.
Variable get_DesTraj : R -> 'cV[R]_xlen.
Variable P : 'M[R]_xlen.
Variable integrate_adaptive :
  R -> R -> inc_cost -> state_type R -> R -> R -> R
  -> state_type R * result nat.

(** X9.  The order of the entries of [x_wrap] has no effect: with two
    tables that hold the same indices the same number of times,
    [get_term_cost()], [get_dmdx()] and [update()] return the same and
    leave the same object. *)
Theorem x_wrap_order_irrelevant
  (ks ks' : seq nat) (c : cost R xlen inc_cost state_intp) :
  perm_eq ks ks' ->
  [/\ get_term_cost lofx_begin lofx_end sample ks AngleWrap State2Mat
        get_DesTraj P c
      = get_term_cost lofx_begin lofx_end sample ks' AngleWrap State2Mat
          get_DesTraj P c,
      get_dmdx lofx_begin lofx_end sample ks AngleWrap State2Mat
        get_DesTraj P c
      = get_dmdx lofx_begin lofx_end sample ks' AngleWrap State2Mat
          get_DesTraj P c
    & update lofx_begin lofx_end sample ks AngleWrap State2Mat
        get_DesTraj P integrate_adaptive c
      = update lofx_begin lofx_end sample ks' AngleWrap State2Mat
          get_DesTraj P integrate_adaptive c ].
Proof.
move=> Hp.
have Hw x : wrapped ks AngleWrap x = wrapped ks' AngleWrap x.
  exact: foldl_modify_perm.
have Hs : size ks = size ks' by exact: perm_size.
case Hx: (sample (m_x_intp c) (lofx_end (m_lofx c))) => [x|]; last first.
  rewrite !(get_term_cost_throw _ _ _ _ _ _ Hx).
  by rewrite !(get_dmdx_throw _ _ _ _ _ _ Hx) !(update_throw _ _ _ _ _ _ _ Hx).
rewrite !(get_term_cost_ok _ _ _ _ _ _ Hx) !(get_dmdx_ok _ _ _ _ _ _ Hx).
rewrite !(update_run _ _ _ _ _ _ _ Hx).
by rewrite /integrated /seeded /terminal /err_vec /scratch /wrap_size_ !Hw Hs.
Qed.

End WrapOrder.

(** * An instance over the rationals

    A one-dimensional trajectory [x(t) = t] whose only component is an
    angle wrapped into (-1, 1], the weight [P = 1], the desired state 0, and
    an integrator with odeint's loop guard that adds the running cost
    [l = 1] over the window in a single step. *)

Module Demo.

Record intp : Type := Intp { w_begin : rat; w_end : rat }.

Definition sample (ip : intp) (t : rat) : result (seq rat) := Ok [:: t].

(** An interpolator asked for a time its trajectory does not cover. *)
Definition out_of_range (ip : intp) (t : rat) : result (seq rat) := Throw.

Definition x_wrap : seq nat := [:: 0%N].

(** Wrapping into (-1, 1], the period being 2. *)
Definition wrap2 (theta : rat) : rat :=
  theta - (Num.ceil ((theta - 1) / 2))%:~R * 2.

Definition State2Mat (x : seq rat) : 'cV[rat]_1 := const_mx (nth 0 x 0).

Definition get_DesTraj (t : rat) : 'cV[rat]_1 := 0.

Definition P : 'M[rat]_1 := 1%:M.

Definition integrate (abs rel : rat) (sys : intp) (s : seq rat)
  (a b dt : rat) : seq rat * result nat :=
  if b <= a then (s, Ok 0%N)
  else (vec_modify (fun j => j + (b - a)) 0 s, Ok 1%N).

Definition obj : Type := cost rat 1 intp intp.

Definition fresh (a b : rat) : obj := cost_ctor id (Intp a b) 0 0%N.

Definition upd : Obj.M obj unit :=
  update w_begin w_end sample x_wrap wrap2 State2Mat get_DesTraj P integrate.

Definition mcost : Obj.M obj rat :=
  get_term_cost w_begin w_end sample x_wrap wrap2 State2Mat get_DesTraj P.

Definition grad : Obj.M obj 'rV[rat]_1 :=
  get_dmdx w_begin w_end sample x_wrap wrap2 State2Mat get_DesTraj P.

Definition term (c : obj) (x : seq rat) : rat :=
  terminal w_end x_wrap wrap2 State2Mat get_DesTraj P c x.

(** The projected sample, after the wrap. *)
Definition proj (x : seq rat) : 'cV[rat]_1 :=
  State2Mat (wrapped x_wrap wrap2 x).

(** The objects of the examples: fresh from the constructor, on the
    windows [0, 1], [1, 1] and, with the bounds the wrong way round,
    [1, 0]; an object whose scratch members were left by a call at another
    terminal time, bound again to the window [0, 1]; and an object whose
    sampled state holds the angle 3. *)
Definition c01 : obj := fresh 0 1.
Definition c11 : obj := fresh 1 1.
Definition c10 : obj := fresh 1 0.
Definition c01_used : obj :=
  rebind (grad (fresh 0 (1 + 1))).2 (Intp 0 1) (Intp 0 1).
Definition c_angle : obj := set_x_tf_ c01 [:: 1 + 1 + 1].

(** An integrator that gives up after it has touched the state; a sampler
    of a two-component state; objects on the windows [0, 0], [0, 1E-7] and
    [0, 1E-7 / 2]; the error vector of the sample taken at [t]; a use of
    the object that updates it and two calls that do not; the integral of
    the running cost of the instance, the constant 1, from [a] to [b]; a
    symmetric positive-semidefinite weight with the entries 1, 3, 3, 9. *)
Definition stall (abs rel : rat) (sys : intp) (s : seq rat)
  (a b dt : rat) : seq rat * result nat :=
  (vec_modify (fun j => j + 1) 0 s, Throw).

Definition sample2 (ip : intp) (t : rat) : result (seq rat) := Ok [:: t; t].

Definition c00 : obj := fresh 0 0.
Definition c_short : obj := fresh 0 (10%:R ^- 7).

Definition running_integral (a b : rat) : rat := b - a.

Definition P139 : 'M[rat]_2 :=
  \matrix_(i, j) nth 0 (nth [::] [:: [:: 1; 3%:R]; [:: 3%:R; 9%:R]] i) j.

Definition err (t : rat) : 'cV[rat]_1 :=
  err_vec x_wrap wrap2 State2Mat get_DesTraj t [:: t].

Definition calls : seq (intp * intp * member) :=
  [:: (Intp 0 1, Intp 0 1, Update); (Intp 0 (1 + 1), Intp 0 (1 + 1), GetDmdx);
      (Intp 1 1, Intp 1 1, Update)].

Definition reads : seq (intp * intp * member) :=
  [:: (Intp 0 (1 + 1), Intp 0 (1 + 1), GetDmdx);
      (Intp 1 1, Intp 1 1, GetTermCost)].

Lemma wrap2_contract : AngleWrap_contract wrap2 1.
Proof.
move=> theta; rewrite /canonical /same_angle /wrap2; set k := Num.ceil _.
have /andP[] := ceil_itv ((theta - 1) / 2); rewrite -/k.
rewrite ltr_pdivlMr ?ltr0n // ler_pdivrMr ?ltr0n //.
rewrite intrB mulrBl mul1r => Hlo Hhi; split; last first.
  by exists (- k); rewrite mulrNz mulNr.
apply/andP; split; last by rewrite lerBlDl -lerBlDr.
rewrite ltrBrDl; move: Hlo; rewrite ltrBrDr -addrA.
by rewrite -[in - 2](_ : 1 + 1 = 2) // opprD subrK.
Qed.

Lemma wrap2_0 : wrap2 0 = 0.
Proof.
rewrite /wrap2.
have -> : Num.ceil ((0 - 1) / 2 : rat) = 0.
  apply: ceil_def; rewrite !sub0r mulrNz mulr1z mulr0z mulNr oppr_le0 ltrN2.
  by rewrite divr_ge0 ?ler01 ?ler0n // ltr_pdivrMr ?ltr0n // mul1r ltr1n.
by rewrite mul0r subr0.
Qed.

Lemma wrap2_1 : wrap2 1 = 1.
Proof. by rewrite /wrap2 subrr mul0r ceil0 mul0r subr0. Qed.

Lemma wrapped_one (f : rat -> rat) (t : rat) : wrapped x_wrap f [:: t] = [:: f t].
Proof. by []. Qed.

Lemma termE (c : obj) (t : rat) : term c [:: t] = wrap2 t * wrap2 t.
Proof.
rewrite /term /terminal /quad_form /err_vec wrapped_one /get_DesTraj /P.
rewrite /State2Mat [nth _ _ _]/=.
by rewrite subr0 mulmx1 mxE big_ord1 !mxE.
Qed.

Lemma guard : forward_only_guard integrate.
Proof. by move=> abs rel sys s a b dt _ Hba; rewrite /integrate Hba. Qed.

Lemma keeps_size : integrator_keeps_size integrate.
Proof.
move=> abs rel sys s a b dt; rewrite /integrate.
by case: ifP => _; rewrite ?size_vec_modify.
Qed.

Lemma quad_form_sumE (v : 'cV[rat]_1) : quad_form_sum P v = v 0 0 * v 0 0.
Proof. by rewrite /quad_form_sum big_ord1 big_ord1 /P mxE eqxx mulr1. Qed.

Lemma P_pos_def : pos_def P.
Proof.
split=> [|v Hv]; first by rewrite /P trmx1.
rewrite quad_form_sumE -expr2 lt_def sqr_ge0 andbT sqrf_eq0.
apply: contraNneq Hv => Hv; apply/eqP/matrixP => i j.
by rewrite !ord1 mxE.
Qed.

Lemma P_pos_semidef : pos_semidef P.
Proof.
split=> [|v]; first by rewrite /P trmx1.
by rewrite quad_form_sumE -expr2 sqr_ge0.
Qed.

Lemma forward_step (m : rat) :
  integrate (10%:R ^- 5) (10%:R ^- 5) (Intp 0 1) [:: m] 0 (1 - 10%:R ^- 7)
    (100%:R^-1)
  = ([:: m + (1 - 10%:R ^- 7 - 0)], Ok 1%N).
Proof.
rewrite /integrate leNgt subr_gt0.
by have -> : (10%:R ^- 7 < 1 :> rat) by exact: eps_lt1.
Qed.

Lemma integrated_c01 :
  integrated w_begin w_end x_wrap wrap2 State2Mat get_DesTraj P integrate
    c01 [:: 1]
  = ([:: term c01 [:: 1] + (1 - 10%:R ^- 7 - 0)], Ok 1%N).
Proof.
rewrite /integrated.
rewrite (@seeded_one _ _ _ _ w_end x_wrap wrap2 State2Mat get_DesTraj P c01
           [:: 1] erefl).
rewrite /tol /eps /dt0 [m_lofx c01]/= forward_step /term.
reflexivity.
Qed.

Lemma upd_c01 :
  upd c01
  = (Ok tt,
     set_J1steps_
       (set_J1_
          (scratch w_begin w_end x_wrap wrap2 State2Mat get_DesTraj c01 [:: 1])
          [:: term c01 [:: 1] + (1 - 10%:R ^- 7 - 0)]) 1%N).
Proof.
rewrite /upd (@update_run _ _ _ _ w_begin w_end sample x_wrap wrap2 State2Mat
                get_DesTraj P integrate c01 [:: 1] erefl).
rewrite integrated_c01.
reflexivity.
Qed.

Lemma upd_c10 :
  upd c10
  = (Ok tt,
     set_J1steps_
       (set_J1_
          (scratch w_begin w_end x_wrap wrap2 State2Mat get_DesTraj c10 [:: 0])
          [:: term c10 [:: 0]]) 0%N).
Proof.
have Hle : w_end (m_lofx c10) - eps _ <= w_begin (m_lofx c10).
  rewrite [w_end _]/= [w_begin _]/= sub0r.
  by apply: ltW; apply: lt_trans ltr01; rewrite oppr_lt0 eps_gt0.
have [_ Hu] := @update_no_step _ _ _ _ w_begin w_end sample x_wrap wrap2
                 State2Mat get_DesTraj P integrate c10 [:: 0] guard erefl Hle
                 erefl.
rewrite /upd Hu /term.
reflexivity.
Qed.

Lemma wrap2_idem (theta : rat) : wrap2 (wrap2 theta) = wrap2 theta.
Proof.
have [/andP[Hlo Hhi] _] := wrap2_contract theta.
rewrite {1}/wrap2 (_ : Num.ceil _ = 0) ?mul0r ?subr0 //.
apply: ceil_def; rewrite sub0r mulrNz mulr1z mulr0z.
rewrite ltr_pdivlMr ?ltr0n // ler_pdivrMr ?ltr0n // mul0r subr_le0 Hhi andbT.
by rewrite ltrBrDr mulN1r -[in - 2](_ : 1 + 1 = 2) // opprD subrK.
Qed.

Lemma at_desired : State2Mat (wrapped x_wrap wrap2 [:: 0]) = get_DesTraj 0.
Proof.
rewrite wrapped_one wrap2_0 /State2Mat /get_DesTraj [nth _ _ _]/=.
by apply/matrixP => i j; rewrite !mxE.
Qed.

Lemma integrate_forward (abs rel : rat) (sys : intp) (s a b dt : rat) :
  a < b ->
  integrate abs rel sys [:: s] a b dt
  = ([:: s + running_integral a b], Ok 1%N).
Proof. by move=> Hab; rewrite /integrate leNgt Hab. Qed.









Lemma P139_pos_semidef : pos_semidef P139.
Proof.
split=> [|v].
  apply/matrixP => i j; rewrite !mxE.
  by case: i => [[|[|i]] Hi] //; case: j => [[|[|j]] Hj].
rewrite /quad_form_sum !big_ord_recl !big_ord0 !mxE /= !addr0.
set a := v ord0 0; set b := v (lift ord0 ord0) 0; set c := 3%:R * b.
have -> : a * 1 * a = a ^+ 2 by rewrite mulr1 expr2.
have -> : a * 3%:R * b = a * c by rewrite -mulrA.
have -> : b * 3%:R * a = a * c by rewrite [b * _]mulrC mulrC.
have -> : b * 9%:R * b = c ^+ 2.
  by rewrite expr2 /c mulrACA -natrM [b * _]mulrC -mulrA.
have -> : a ^+ 2 + a * c + (a * c + c ^+ 2) = (a + c) ^+ 2.
  by rewrite sqrrD mulr2n !addrA.
exact: sqr_ge0.
Qed.

Lemma short_len :
  w_end (m_lofx c_short) - w_begin (m_lofx c_short) <= (10%:R ^+ 7)^-1.
Proof. by rewrite [w_end _]/= [w_begin _]/= subr0 lexx. Qed.

(** An exception of the interpolator escapes [update], which has stored
    nothing by then. *)
Lemma upd_out_of_range :
  update w_begin w_end out_of_range x_wrap wrap2 State2Mat get_DesTraj P
    integrate c01
  = (Throw, window_read w_begin w_end c01).
Proof. exact: update_throw. Qed.

End Demo.

(** ** The theorems at the instance *)


Lemma get_term_cost_quadratic_witness :
  [/\ (Demo.mcost Demo.c01).1
      = Ok (quad_form_sum Demo.P (Demo.proj [:: 1] - Demo.get_DesTraj 1)),
      0 <= quad_form_sum Demo.P (Demo.proj [:: 1] - Demo.get_DesTraj 1)
    & quad_form_sum Demo.P (Demo.proj [:: 1] - Demo.get_DesTraj 1) = 0
      <-> Demo.proj [:: 1] = Demo.get_DesTraj 1 ].
Proof.
have [_ H2 H3 H4] :=
  @get_term_cost_quadratic _ _ _ _ Demo.w_begin Demo.w_end Demo.sample
    Demo.x_wrap Demo.wrap2 Demo.State2Mat Demo.get_DesTraj Demo.P Demo.c01
    [:: 1] erefl.
split; [exact: H2 | exact: (H3 Demo.P_pos_semidef) | exact: (H4 Demo.P_pos_def)].
Defined.

Lemma get_dmdx_gradient_witness :
  [/\ (Demo.grad Demo.c01).1
      = Ok ((Demo.proj [:: 1] - Demo.get_DesTraj 1)^T *m Demo.P),
      (Demo.grad Demo.c01).2 = (Demo.mcost Demo.c01).2
    & (Demo.grad Demo.c01_used).1 = (Demo.grad Demo.c01).1 ].
Proof.
have [H1 _ H3 H4] :=
  @get_dmdx_gradient _ _ _ _ Demo.w_begin Demo.w_end Demo.sample Demo.x_wrap
    Demo.wrap2 Demo.State2Mat Demo.get_DesTraj Demo.P Demo.c01 Demo.c01_used
    [:: 1] erefl erefl erefl.
by split; [exact: H1 | exact: H3 | exact: H4].
Defined.

Lemma update_zero_length_window_witness :
  [/\ (Demo.upd Demo.c11).1 = Ok tt,
      operator_double (Demo.upd Demo.c11).2 = Some (Demo.term Demo.c11 [:: 1])
    & steps (Demo.upd Demo.c11).2 = 0%N ].
Proof.
have [[_ H2 H3 H4] _] :=
  @update_zero_length_window _ _ _ _ Demo.w_begin Demo.w_end Demo.sample
    Demo.x_wrap Demo.wrap2 Demo.State2Mat Demo.get_DesTraj Demo.P
    Demo.integrate Demo.c11 [:: 1] Demo.guard erefl erefl erefl.
by split; [exact: H2 | exact: H3 | exact: H4].
Defined.

Lemma update_backward_window_witness :
  [/\ (Demo.upd Demo.c10).1 = Ok tt,
      operator_double (Demo.upd Demo.c10).2 = Some (Demo.term Demo.c10 [:: 0])
    & steps (Demo.upd Demo.c10).2 = 0%N ].
Proof.
have [H1 H2 H3 _ _] :=
  @update_backward_window _ _ _ _ Demo.w_begin Demo.w_end Demo.sample
    Demo.x_wrap Demo.wrap2 Demo.State2Mat Demo.get_DesTraj Demo.P
    Demo.integrate Demo.c10 [:: 0] Demo.guard erefl ltr01 erefl.
by split; [exact: H1 | exact: H2 | exact: H3].
Defined.

Lemma operator_double_defined_witness :
  [/\ operator_double Demo.c01 = Some 0,
      steps Demo.c01 = 0%N
    & operator_double (Demo.upd Demo.c01).2
      = Some (Demo.term Demo.c01 [:: 1] + (1 - 10%:R ^- 7 - 0)) ].
Proof.
have [H1 H2 H3 _] :=
  @operator_double_defined _ _ _ _ id Demo.w_begin Demo.w_end Demo.sample
    Demo.x_wrap Demo.wrap2 Demo.State2Mat Demo.get_DesTraj Demo.P
    Demo.integrate (Demo.Intp 0 1) 0 0%N Demo.c01 [:: 1] erefl
    (congr1 fst Demo.upd_c01).
split; [exact: H1 | exact: H2 |].
rewrite [LHS]H3 Demo.integrated_c01.
reflexivity.
Defined.

Lemma update_idempotent_witness :
  [/\ iter 2 (fun c' => (Demo.upd c').2) (Demo.upd Demo.c01).2
      = (Demo.upd Demo.c01).2,
      (Demo.upd (iter 2 (fun c' => (Demo.upd c').2) (Demo.upd Demo.c01).2)).1
      = (Demo.upd Demo.c01).1,
      operator_double
        (Demo.upd (iter 2 (fun c' => (Demo.upd c').2) (Demo.upd Demo.c01).2)).2
      = operator_double (Demo.upd Demo.c01).2
    & steps
        (Demo.upd (iter 2 (fun c' => (Demo.upd c').2) (Demo.upd Demo.c01).2)).2
      = steps (Demo.upd Demo.c01).2 ].
Proof.
exact: (@update_idempotent _ _ _ _ Demo.w_begin Demo.w_end Demo.sample
          Demo.x_wrap Demo.wrap2 Demo.State2Mat Demo.get_DesTraj Demo.P
          Demo.integrate Demo.c01 2%N Demo.keeps_size erefl).
Defined.

Lemma wrap_angles_frame_witness :
  [/\ size (x_tf_ (wrap_angles Demo.x_wrap Demo.wrap2 Demo.c_angle).2) = 1%N,
      canonical 1
        (nth 0 (x_tf_ (wrap_angles Demo.x_wrap Demo.wrap2 Demo.c_angle).2) 0)
    & same_angle 1 (1 + 1 + 1)
        (nth 0 (x_tf_ (wrap_angles Demo.x_wrap Demo.wrap2 Demo.c_angle).2) 0) ].
Proof.
have [H1 _ _ _ H5] :=
  @wrap_angles_frame _ _ _ _ Demo.x_wrap Demo.wrap2 1 Demo.c_angle erefl.
have [H6 H7] := H5 Demo.wrap2_contract 0%N (mem_head _ _).
by split; [exact: H1 | exact: H6 | exact: H7].
Defined.

(** ** Where the code parts from the description *)

(** On the window [1, 0], whose end lies before its start, [update()]
    returns normally: it does not throw, and it stores the terminal cost at
    [tf = 0], which is 0, with 0 steps. *)
Lemma update_backward_window_returns :
  [/\ Demo.w_end (m_lofx Demo.c10) < Demo.w_begin (m_lofx Demo.c10),
      (Demo.upd Demo.c10).1 = Ok tt,
      (Demo.upd Demo.c10).1 <> Throw,
      operator_double (Demo.upd Demo.c10).2 = Some 0
    & steps (Demo.upd Demo.c10).2 = 0%N ].
Proof.
rewrite Demo.upd_c10 /operator_double [J1_ _]/= [ohead _]/= Demo.termE.
rewrite Demo.wrap2_0 mulr0.
by split=> //; exact: ltr01.
Qed.

(** An object fresh from the constructor, on which [update()] has never
    run, converts to the [double] 0: the read is defined and does not
    fail. *)
Lemma operator_double_before_update :
  [/\ operator_double Demo.c01 = Some 0,
      operator_double Demo.c01 <> None
    & steps Demo.c01 = 0%N ].
Proof. by []. Qed.

(** ** The further properties at the instance *)

Lemma sample_throw_frame_witness :
  [/\ (update Demo.w_begin Demo.w_end Demo.out_of_range Demo.x_wrap Demo.wrap2
         Demo.State2Mat Demo.get_DesTraj Demo.P Demo.integrate Demo.c01).1
      = Throw,
      J1_ (call_member Demo.w_begin Demo.w_end Demo.out_of_range Demo.x_wrap
             Demo.wrap2 Demo.State2Mat Demo.get_DesTraj Demo.P Demo.integrate
             Update Demo.c01)
      = J1_ Demo.c01
    & J1steps_
        (call_member Demo.w_begin Demo.w_end Demo.out_of_range Demo.x_wrap
           Demo.wrap2 Demo.State2Mat Demo.get_DesTraj Demo.P Demo.integrate
           Update Demo.c01)
      = J1steps_ Demo.c01 ].
Proof.
have [H1 _ _ H4] :=
  @sample_throw_frame _ _ _ _ Demo.w_begin Demo.w_end Demo.out_of_range
    Demo.x_wrap Demo.wrap2 Demo.State2Mat Demo.get_DesTraj Demo.P
    Demo.integrate Demo.c01 erefl.
have [[H5 H6 _ _ _] _] := H4 Update.
by split; [exact: H1 | exact: H5 | exact: H6].
Defined.

Lemma integrator_throw_state_witness :
  [/\ (update Demo.w_begin Demo.w_end Demo.sample Demo.x_wrap Demo.wrap2
         Demo.State2Mat Demo.get_DesTraj Demo.P Demo.stall Demo.c01).1
      = Throw,
      J1_ (update Demo.w_begin Demo.w_end Demo.sample Demo.x_wrap Demo.wrap2
             Demo.State2Mat Demo.get_DesTraj Demo.P Demo.stall Demo.c01).2
      = [:: Demo.term Demo.c01 [:: 1] + 1]
    & steps
        (update Demo.w_begin Demo.w_end Demo.sample Demo.x_wrap Demo.wrap2
           Demo.State2Mat Demo.get_DesTraj Demo.P Demo.stall Demo.c01).2
      = 0%N ].
Proof.
have [H1 H2 H3 _ _] :=
  @integrator_throw_state _ _ _ _ Demo.w_begin Demo.w_end Demo.sample
    Demo.x_wrap Demo.wrap2 Demo.State2Mat Demo.get_DesTraj Demo.P Demo.stall
    Demo.c01 [:: 1] erefl erefl.
by split; [exact: H1 | exact: H2 | exact: H3].
Defined.

Lemma update_short_window_witness :
  [/\ 0 < Demo.w_end (m_lofx Demo.c_short) - Demo.w_begin (m_lofx Demo.c_short),
      (Demo.upd Demo.c_short).1 = Ok tt,
      operator_double (Demo.upd Demo.c_short).2
      = Some (Demo.term Demo.c_short [:: 10%:R ^- 7])
    & steps (Demo.upd Demo.c_short).2 = 0%N ].
Proof.
have [H1 H2 H3 _] :=
  @update_short_window _ _ _ _ Demo.w_begin Demo.w_end Demo.sample Demo.x_wrap
    Demo.wrap2 Demo.State2Mat Demo.get_DesTraj Demo.P Demo.integrate
    Demo.c_short [:: 10%:R ^- 7] Demo.guard erefl Demo.short_len erefl.
split; [| exact: H1 | exact: H2 | exact: H3].
rewrite [Demo.w_end _]/= [Demo.w_begin _]/= subr0.
exact: eps_gt0.
Defined.

Lemma accumulator_one_element_witness :
  size (J1_ (use Demo.w_begin Demo.w_end Demo.sample Demo.x_wrap Demo.wrap2
               Demo.State2Mat Demo.get_DesTraj Demo.P Demo.integrate
               Demo.calls Demo.c01)) = 1%N /\
  exists j,
    operator_double
      (use Demo.w_begin Demo.w_end Demo.sample Demo.x_wrap Demo.wrap2
         Demo.State2Mat Demo.get_DesTraj Demo.P Demo.integrate
         Demo.calls Demo.c01) = Some j.
Proof.
exact: (@accumulator_one_element _ _ _ _ id Demo.w_begin Demo.w_end
          Demo.sample Demo.x_wrap Demo.wrap2 Demo.State2Mat Demo.get_DesTraj
          Demo.P Demo.integrate Demo.calls (Demo.Intp 0 1) 0 0%N
          Demo.keeps_size).
Defined.

Lemma stored_cost_written_by_update_only_witness :
  operator_double
    (use Demo.w_begin Demo.w_end Demo.sample Demo.x_wrap Demo.wrap2
       Demo.State2Mat Demo.get_DesTraj Demo.P Demo.integrate
       Demo.reads (Demo.upd Demo.c01).2)
  = operator_double (Demo.upd Demo.c01).2 /\
  steps
    (use Demo.w_begin Demo.w_end Demo.sample Demo.x_wrap Demo.wrap2
       Demo.State2Mat Demo.get_DesTraj Demo.P Demo.integrate
       Demo.reads (Demo.upd Demo.c01).2)
  = steps (Demo.upd Demo.c01).2.
Proof.
exact: (@stored_cost_written_by_update_only _ _ _ _ Demo.w_begin Demo.w_end
          Demo.sample Demo.x_wrap Demo.wrap2 Demo.State2Mat Demo.get_DesTraj
          Demo.P Demo.integrate Demo.reads (Demo.upd Demo.c01).2 erefl).
Defined.

Lemma terminal_members_after_update_witness :
  Demo.mcost (Demo.upd Demo.c01).2
  = (Ok (Demo.term Demo.c01 [:: 1]), (Demo.upd Demo.c01).2) /\
  Demo.grad (Demo.upd Demo.c01).2
  = (Ok ((Demo.err 1)^T *m Demo.P), (Demo.upd Demo.c01).2).
Proof.
have [H1 H2 _] :=
  @terminal_members_after_update _ _ _ _ Demo.w_begin Demo.w_end Demo.sample
    Demo.x_wrap Demo.wrap2 Demo.State2Mat Demo.get_DesTraj Demo.P
    Demo.integrate Demo.c01 [:: 1] erefl.
by split; [exact: H1 | exact: H2].
Defined.

Lemma x_wrap_order_irrelevant_witness :
  get_term_cost Demo.w_begin Demo.w_end Demo.sample2 [:: 0%N; 1%N]
    Demo.wrap2 Demo.State2Mat Demo.get_DesTraj Demo.P Demo.c01
  = get_term_cost Demo.w_begin Demo.w_end Demo.sample2 [:: 1%N; 0%N]
      Demo.wrap2 Demo.State2Mat Demo.get_DesTraj Demo.P Demo.c01 /\
  update Demo.w_begin Demo.w_end Demo.sample2 [:: 0%N; 1%N]
    Demo.wrap2 Demo.State2Mat Demo.get_DesTraj Demo.P Demo.integrate Demo.c01
  = update Demo.w_begin Demo.w_end Demo.sample2 [:: 1%N; 0%N]
      Demo.wrap2 Demo.State2Mat Demo.get_DesTraj Demo.P Demo.integrate
      Demo.c01.
Proof.
have [H1 _ H3] :=
  @x_wrap_order_irrelevant _ _ _ _ Demo.w_begin Demo.w_end Demo.sample2
    Demo.wrap2 Demo.State2Mat Demo.get_DesTraj Demo.P Demo.integrate
    [:: 0%N; 1%N] [:: 1%N; 0%N] Demo.c01 erefl.
by split; [exact: H1 | exact: H3].
Defined.

Lemma wrap_angles_idempotent_witness :
  nth 0 (x_tf_ (wrap_angles [:: 0%N; 0%N] Demo.wrap2 Demo.c_angle).2) 0
  = Demo.wrap2 (nth 0 (x_tf_ Demo.c_angle) 0) /\
  x_tf_ (wrap_angles [:: 0%N; 0%N] Demo.wrap2
           (wrap_angles [:: 0%N; 0%N] Demo.wrap2 Demo.c_angle).2).2
  = x_tf_ (wrap_angles [:: 0%N; 0%N] Demo.wrap2 Demo.c_angle).2.
Proof.
have [H1 H2] :=
  @wrap_angles_idempotent _ _ _ _ [:: 0%N; 0%N] Demo.wrap2 Demo.c_angle
    Demo.wrap2_idem erefl.
by split; [exact: (H1 0%N (mem_head _ _)) | exact: H2].
Defined.

Lemma terminal_cost_at_desired_state_witness :
  (Demo.mcost Demo.c00).1 = Ok 0 /\ (Demo.grad Demo.c00).1 = Ok 0.
Proof.
exact: (@terminal_cost_at_desired_state _ _ _ _ Demo.w_begin Demo.w_end
          Demo.sample Demo.x_wrap Demo.wrap2 Demo.State2Mat Demo.get_DesTraj
          Demo.P Demo.c00 [:: 0] erefl Demo.at_desired).
Defined.

(** ** The terminal cost on doubles *)

Lemma get_term_cost_double_form_witness :
  [/\ (Demo.mcost Demo.c01).1
      = Ok (((Demo.proj [:: 1] - Demo.get_DesTraj 1)^T *m Demo.P
             *m (Demo.proj [:: 1] - Demo.get_DesTraj 1)) 0 0),
      ((Demo.proj [:: 1] - Demo.get_DesTraj 1)^T *m Demo.P
       *m (Demo.proj [:: 1] - Demo.get_DesTraj 1)) 0 0
      = term_cost_of 0 +%R (fun a b => a - b) *%R
          (entries (Demo.proj [:: 1])) (entries (Demo.get_DesTraj 1))
          (rows Demo.P)
    & PrimFloat.eqb
        (Binary64.term_cost_double
           [:: (-0x1.8000000000001p+1)%float; 1%float]
           [:: (-0x1.8000000000001p+1)%float; 1%float]
           [:: [:: 1%float; 3%float]; [:: 3%float; 9%float]])
        PrimFloat.zero = true ].
Proof.
have [H1 H2 H3] :=
  @get_term_cost_double_form _ _ _ _ Demo.w_begin Demo.w_end Demo.sample
    Demo.x_wrap Demo.wrap2 Demo.State2Mat Demo.get_DesTraj Demo.P Demo.c01
    [:: 1] erefl.
have Hmx : all Binary64.finite_double
             [:: (-0x1.8000000000001p+1)%float; 1%float] by vm_compute.
have HP : all (all Binary64.finite_double)
            [:: [:: 1%float; 3%float]; [:: 3%float; 9%float]] by vm_compute.
have [H4 _] := H3 _ _ Hmx HP.
by split; [exact: H1 | exact: H2 | exact: H4].
Defined.

(** On doubles the terminal cost of C2 is neither non-negative nor zero
    only at the desired state.  With the positive-definite weight [1],
    the projected state [2^-600] and the desired state 0, which differ,
    the squared error underflows and the cost is exactly 0.  With the
    symmetric positive-semidefinite weight of entries 1, 3, 3, 9, the
    projected state [(-(3 + 2^-51), 1)] and the desired state 0, the exact
    form is [2^-102] and the computed cost is negative ([P] being
    symmetric, in either order of the two products). *)
Lemma get_term_cost_double_sign_and_zero :
  [/\ pos_def Demo.P /\ pos_semidef Demo.P139,
      PrimFloat.eqb 0x1p-600%float 0%float = false,
      PrimFloat.eqb
        (Binary64.term_cost_double [:: 0x1p-600%float] [:: 0%float]
           [:: [:: 1%float]])
        0%float = true,
      PrimFloat.ltb
        (Binary64.term_cost_double
           [:: (-0x1.8000000000001p+1)%float; 1%float]
           [:: 0%float; 0%float]
           [:: [:: 1%float; 3%float]; [:: 3%float; 9%float]])
        0%float = true
    & PrimFloat.leb 0%float
        (Binary64.term_cost_double
           [:: (-0x1.8000000000001p+1)%float; 1%float]
           [:: 0%float; 0%float]
           [:: [:: 1%float; 3%float]; [:: 3%float; 9%float]])
      = false ].
Proof.
split; [| by vm_compute | by vm_compute | by vm_compute | by vm_compute].
by split; [exact: Demo.P_pos_def | exact: Demo.P139_pos_semidef].
Qed.

(** ** The running cost on a short window *)

